(** * Hacker Stories: a shallow embedding of [src/App.js] and [src/App.tsx]

    The development follows the source top to bottom: the persistent value
    cell ([useSemiPersistentState]), the result-set reducer
    ([storiesReducer]), the search history ([getLastSearches], [handleSearch],
    [handleLastSearch]) and the sort controller ([SORTS], [handleSort] and the
    derived [sortedList] of the [List] component).

    JavaScript strings are modelled as [string], numbers of a story as [Z],
    arrays as [list]; where the source shares and mutates an array
    ([Array.prototype.reverse]) the arrays live in a store indexed by
    references. *)

From Stdlib Require Import ZArith String List Bool.
From Stdlib Require OrderedTypeEx.
From stdpp Require Import gmap strings list.

Open Scope string_scope.

(** ** Data model (the [Story] and [StoriesState] types of App.tsx) *)

Record Story := mkStory {
  objectID : string;
  url : string;
  title : string;
  author : string;
  num_comments : Z;
  points : Z
}.

Definition Stories := list Story.

Record StoriesState := mkState {
  data : Stories;
  isLoading : bool;
  isError : bool
}.

(** The four action kinds of the [StoriesAction] union.  App.js is untyped,
    so any other [type] string can reach the reducer as well; that is
    [OTHER_ACTION], which the [default] branch answers with [throw]. *)
Inductive StoriesAction :=
| STORIES_FETCH_INIT
| STORIES_FETCH_SUCCESS (payload : Stories)
| STORIES_FETCH_FAILURE
| REMOVE_STORY (payload : Story)
| OTHER_ACTION (type : string).

Definition recognized (a : StoriesAction) : bool :=
  match a with OTHER_ACTION _ => false | _ => true end.

(** ** The reducer (App.js 22-53, App.tsx 65-96)

    [None] stands for the [throw new Error()] of the default branch. *)
Definition storiesReducer (state : StoriesState) (action : StoriesAction)
  : option StoriesState :=
  match action with
  | STORIES_FETCH_INIT =>
      Some {| data := data state; isLoading := true; isError := false |}
  | STORIES_FETCH_SUCCESS payload =>
      Some {| data := payload; isLoading := false; isError := false |}
  | STORIES_FETCH_FAILURE =>
      Some {| data := data state; isLoading := false; isError := true |}
  | REMOVE_STORY payload =>
      Some {| data :=
                List.filter
                  (fun story => negb (String.eqb (objectID payload) (objectID story)))
                  (data state);
              isLoading := isLoading state;
              isError := isError state |}
  | OTHER_ACTION _ => None
  end.

(** The initial state handed to [React.useReducer] (App.js 67-70). *)
Definition initialStories : StoriesState :=
  {| data := []; isLoading := false; isError := false |}.

(** Dispatching a sequence of actions, oldest first; a throw aborts. *)
Fixpoint dispatchAll (state : StoriesState) (actions : list StoriesAction)
  : option StoriesState :=
  match actions with
  | [] => Some state
  | a :: rest =>
      match storiesReducer state a with
      | Some state' => dispatchAll state' rest
      | None => None
      end
  end.

(** ** The persistent value cell (App.js 10-20, App.tsx 9-22)

    [localStorage] is a finite map from keys to strings; [getItem] answers
    [null] (here [None]) for an absent key. *)
Abbreviation localStorage := (gmap string string).

Definition getItem (key : string) (store : localStorage) : option string :=
  store !! key.

Definition setItem (key value : string) (store : localStorage) : localStorage :=
  <[key := value]> store.

(** [a || b] at the one place the source uses it: the left operand is a
    string or [null]; [null] and the empty string are the falsy ones. *)
Definition js_or (a : option string) (b : string) : string :=
  match a with
  | None => b
  | Some EmptyString => b
  | Some s => s
  end.

(** One instance of the hook: the held value and the store it writes to. *)
Record CellState := mkCell {
  value : string;
  storage : localStorage
}.

(** First render: [useState] takes its initial value from the store, then the
    effect runs once and writes it back. *)
Definition useSemiPersistentState_init
    (key initialState : string) (store : localStorage) : CellState :=
  let v := js_or (getItem key store) initialState in
  {| value := v; storage := setItem key v store |}.

(** [setValue newValue]: the component renders again with the new value and,
    the dependency [value] having changed, the effect writes it to the store.
    Setting the value it already holds changes no dependency and runs no
    effect. *)
Definition setValue (key newValue : string) (c : CellState) : CellState :=
  if String.eqb (value c) newValue then c
  else {| value := newValue; storage := setItem key newValue (storage c) |}.

(** ** Search history (App.js 8, 55-59, 96-114) *)

Definition API_ENDPOINT : string :=
  "https://hn.algolia.com/api/v1/search?query=".

(** [s.replace(pattern, replacement)] for a string pattern: the first
    occurrence of [pattern] in [s], scanning from the left, is replaced; a
    string without an occurrence is returned as it is.  (The replacement is
    taken literally; the only one the source passes is the empty string.) *)
Fixpoint replace (pattern replacement s : string) : string :=
  if String.prefix pattern s
  then replacement +:+ String.substring (String.length pattern)
                                         (String.length s - String.length pattern) s
  else match s with
       | EmptyString => EmptyString
       | String c rest => String c (replace pattern replacement rest)
       end.

Definition extractSearchTerm (u : string) : string :=
  replace API_ENDPOINT "" u.

(** [urls.slice(-n)]: the last [n] elements, all of them when there are fewer. *)
Definition slice_last {A} (n : nat) (l : list A) : list A :=
  drop (length l - n) l.

Definition getLastSearches (urls : list string) : list string :=
  map extractSearchTerm (slice_last 5 urls).

Definition getUrl (searchTerm : string) : string :=
  API_ENDPOINT +:+ searchTerm.

(** The two pieces of [App] state the search handlers read and write. *)
Record AppState := mkApp {
  searchTerm : string;
  urls : list string
}.

Definition initialApp (term : string) : AppState :=
  {| searchTerm := term; urls := [getUrl term] |}.

Definition handleSearchInput (newValue : string) (app : AppState) : AppState :=
  {| searchTerm := newValue; urls := urls app |}.

(** [setUrls(urls.concat(url))]: [concat] builds a new array. *)
Definition handleSearch (term : string) (app : AppState) : AppState :=
  let u := getUrl term in
  {| searchTerm := searchTerm app; urls := urls app ++ [u] |}.

Definition handleSearchSubmit (app : AppState) : AppState :=
  handleSearch (searchTerm app) app.

(** The handler's parameter is called [url] in the source and is not used in
    its body: [searchTerm] there is the state variable of [App]. *)
Definition handleLastSearch (url : string) (app : AppState) : AppState :=
  handleSearch (searchTerm app) app.

(** The buttons of the history row: one per entry of [lastSearches], each
    calling [handleLastSearch] with its own entry. *)
Definition lastSearches (app : AppState) : list string :=
  getLastSearches (urls app).

(** ** The sort controller (App.js 191-211) *)

Inductive SortKey := NONE | TITLE | AUTHOR | COMMENT | POINT.

Definition SortKey_eqb (a b : SortKey) : bool :=
  match a, b with
  | NONE, NONE | TITLE, TITLE | AUTHOR, AUTHOR
  | COMMENT, COMMENT | POINT, POINT => true
  | _, _ => false
  end.

Record SortState := mkSort {
  sortKey : SortKey;
  isReverse : bool
}.

(** [React.useState({ sortKey: 'NONE', isReverse: false })] *)
Definition initialSort : SortState :=
  {| sortKey := NONE; isReverse := false |}.

Definition handleSort (key : SortKey) (sort : SortState) : SortState :=
  let rev := SortKey_eqb (sortKey sort) key && negb (isReverse sort) in
  {| sortKey := key; isReverse := rev |}.

(** The column headers call [handleSort] with one of these four keys. *)
Definition headerKeys : list SortKey := [TITLE; AUTHOR; COMMENT; POINT].

(** *** lodash's [sortBy(list, property)]

    The library is not part of the repository; it is modelled by its
    documented contract: a new array, the elements in ascending order of the
    property, equal elements in their original order (the sort is stable).
    Strings compare by code unit (here: character by character, with
    [String.leb]), numbers numerically; the results below use of the string
    order only that it is transitive and antisymmetric.  A stable sort has
    one possible result, so insertion from the right stands for whichever
    algorithm the library runs. *)
Inductive Property := P_title | P_author | P_num_comments | P_points.

Definition prop_leb (p : Property) (a b : Story) : bool :=
  match p with
  | P_title => String.leb (title a) (title b)
  | P_author => String.leb (author a) (author b)
  | P_num_comments => (num_comments a <=? num_comments b)%Z
  | P_points => (points a <=? points b)%Z
  end.

Definition prop_eqb (p : Property) (a b : Story) : bool :=
  match p with
  | P_title => String.eqb (title a) (title b)
  | P_author => String.eqb (author a) (author b)
  | P_num_comments => (num_comments a =? num_comments b)%Z
  | P_points => (points a =? points b)%Z
  end.

Fixpoint insert_sorted {A} (le : A -> A -> bool) (x : A) (l : list A) : list A :=
  match l with
  | [] => [x]
  | y :: rest => if le x y then x :: l else y :: insert_sorted le x rest
  end.

Definition stable_sort {A} (le : A -> A -> bool) (l : list A) : list A :=
  foldr (insert_sorted le) [] l.

(** *** Arrays as shared objects

    [sortBy] allocates, [reverse] rewrites the array it is called on and
    returns that same array, [SORTS.NONE] returns its argument.  Arrays are
    therefore references into a store. *)
Definition ref := nat.

Abbreviation heap := (gmap ref (list Story)).

Definition M (A : Type) : Type := heap -> option (A * heap).

Definition ret {A} (a : A) : M A := fun h => Some (a, h).

Definition bind {A B} (m : M A) (k : A -> M B) : M B :=
  fun h => match m h with
           | Some (a, h') => k a h'
           | None => None
           end.

Notation "'do' x <- m ; k" := (bind m (fun x => k))
  (at level 10, x name, m at level 100, k at level 200).

Definition sortBy (arr : ref) (p : Property) : M ref :=
  fun h => match h !! arr with
           | Some xs =>
               let r := fresh (dom h) in
               Some (r, <[r := stable_sort (prop_leb p) xs]> h)
           | None => None
           end.

Definition reverse (arr : ref) : M ref :=
  fun h => match h !! arr with
           | Some xs => Some (arr, <[arr := rev xs]> h)
           | None => None
           end.

Definition SORTS (key : SortKey) (arr : ref) : M ref :=
  match key with
  | NONE => ret arr
  | TITLE => sortBy arr P_title
  | AUTHOR => sortBy arr P_author
  | COMMENT => do r <- sortBy arr P_num_comments; reverse r
  | POINT => do r <- sortBy arr P_points; reverse r
  end.

(** The [sortedList] of the [List] component. *)
Definition sortedList (sort : SortState) (arr : ref) : M ref :=
  let sortFunction := SORTS (sortKey sort) in
  if isReverse sort
  then do r <- sortFunction arr; reverse r
  else sortFunction arr.

(** What [sortedList] holds, as a function of what the input array held when
    the computation started. *)
Definition sortValue (key : SortKey) (xs : list Story) : list Story :=
  match key with
  | NONE => xs
  | TITLE => stable_sort (prop_leb P_title) xs
  | AUTHOR => stable_sort (prop_leb P_author) xs
  | COMMENT => rev (stable_sort (prop_leb P_num_comments) xs)
  | POINT => rev (stable_sort (prop_leb P_points) xs)
  end.

Definition sortedValue (sort : SortState) (xs : list Story) : list Story :=
  if isReverse sort then rev (sortValue (sortKey sort) xs)
  else sortValue (sortKey sort) xs.

(** *** Being sorted by a key and a direction

    The base order of [TITLE] and [AUTHOR] is ascending, that of [COMMENT]
    and [POINT] descending; [isReverse] inverts it.  [NONE] orders nothing. *)
Definition keyProperty (key : SortKey) : option Property :=
  match key with
  | NONE => None
  | TITLE => Some P_title
  | AUTHOR => Some P_author
  | COMMENT => Some P_num_comments
  | POINT => Some P_points
  end.

Definition baseDescending (key : SortKey) : bool :=
  match key with
  | COMMENT | POINT => true
  | _ => false
  end.

Definition descending (sort : SortState) : bool :=
  xorb (baseDescending (sortKey sort)) (isReverse sort).

(** [r] holds between every element and every later one. *)
Fixpoint pairwise {A} (r : A -> A -> bool) (l : list A) : bool :=
  match l with
  | [] => true
  | x :: rest => forallb (r x) rest && pairwise r rest
  end.

(** [r] holds between every element and the next one. *)
Fixpoint adjacent {A} (r : A -> A -> bool) (l : list A) : bool :=
  match l with
  | [] => true
  | x :: rest =>
      match rest with
      | [] => true
      | y :: _ => r x y && adjacent r rest
      end
  end.

Definition ordered (sort : SortState) (xs : list Story) : bool :=
  match keyProperty (sortKey sort) with
  | None => true
  | Some p =>
      if descending sort
      then adjacent (fun a b => prop_leb p b a) xs
      else adjacent (prop_leb p) xs
  end.

(** No two entries share the value of the sort key. *)
Definition noTies (sort : SortState) (xs : list Story) : bool :=
  match keyProperty (sortKey sort) with
  | None => true
  | Some p => pairwise (fun a b => negb (prop_eqb p a b)) xs
  end.

(** The filter predicate of [REMOVE_STORY], and the states in which the two
    flags are not both set. *)
Definition keeps (item story : Story) : bool :=
  negb (String.eqb (objectID item) (objectID story)).

Definition flagsConsistent (s : StoriesState) : bool :=
  negb (isLoading s && isError s).

#[global] Instance SortKey_eq_dec : EqDecision SortKey.
Proof. solve_decision. Defined.

(** Runs of the three stateful pieces: the values a cell is set to, the events
    of the search form and history row, the header clicks of the table. *)
Definition setValues (key : string) (newValues : list string) (c : CellState)
  : CellState :=
  foldl (fun c v => setValue key v c) c newValues.

Inductive AppEvent :=
| SearchInput (newValue : string)
| SearchSubmit
| LastSearch (term : string).

Definition appStep (app : AppState) (e : AppEvent) : AppState :=
  match e with
  | SearchInput v => handleSearchInput v app
  | SearchSubmit => handleSearchSubmit app
  | LastSearch t => handleLastSearch t app
  end.

Definition appRun (app : AppState) (events : list AppEvent) : AppState :=
  foldl appStep app events.

Definition clickHeaders (clicks : list SortKey) (sort : SortState) : SortState :=
  foldl (fun s k => handleSort k s) sort clicks.

(** ** The URL a fetch asks for (App.js 76)

    [handleFetchStories] requests [urls[urls.length - 1]], which is
    [undefined] (here [None]) for an empty array. *)
Definition lastUrl (urls : list string) : option string :=
  last urls.

Definition handleRemoveStory (item : Story) (state : StoriesState)
  : option StoriesState :=
  storiesReducer state (REMOVE_STORY item).

(** The items of the REMOVE_STORY actions of a sequence, and the stories that
    none of a list of items removes. *)
Fixpoint removedItems (actions : list StoriesAction) : list Story :=
  match actions with
  | [] => []
  | REMOVE_STORY item :: rest => item :: removedItems rest
  | _ :: rest => removedItems rest
  end.

Definition notRemoved (items : list Story) (story : Story) : bool :=
  forallb (fun item => keeps item story) items.

(** The recognized actions other than FETCH_SUCCESS. *)
Definition noNewData (a : StoriesAction) : bool :=
  match a with
  | STORIES_FETCH_SUCCESS _ | OTHER_ACTION _ => false
  | _ => true
  end.

(** ** The revision with one URL (App.tsx 99-103 and 133-140)

    There [App] holds the search term and the active URL, and the form is
    the only way to issue a search. *)
Record UrlState := mkUrlState {
  formTerm : string;
  activeUrl : string
}.

Inductive FormEvent :=
| FormInput (newValue : string)
| FormSubmit.

Definition initialUrlState (term : string) : UrlState :=
  {| formTerm := term; activeUrl := API_ENDPOINT +:+ term |}.

Definition formStep (st : UrlState) (e : FormEvent) : UrlState :=
  match e with
  | FormInput v => {| formTerm := v; activeUrl := activeUrl st |}
  | FormSubmit =>
      {| formTerm := formTerm st; activeUrl := API_ENDPOINT +:+ formTerm st |}
  end.

Definition formRun (st : UrlState) (events : list FormEvent) : UrlState :=
  foldl formStep st events.

Definition formEvent (e : FormEvent) : AppEvent :=
  match e with
  | FormInput v => SearchInput v
  | FormSubmit => SearchSubmit
  end.

(** ** The rows of the table (App.js 243-245)

    [sortedList.map(...)] renders one row per element of the array that
    [sortedList] is, as it is when the computation has ended. *)
Definition renderedRows (sort : SortState) (arr : ref) (h : heap)
  : option (list Story) :=
  match sortedList sort arr h with
  | Some (r, h') => h' !! r
  | None => None
  end.

(** ** The first render of [App] (App.js 63-65)

    The search term is the cell under the key 'search' with the default
    'React'; the list of URLs starts with the URL of that term. *)
Definition startApp (store : localStorage) : AppState :=
  initialApp (value (useSemiPersistentState_init "search" "React" store)).

(** Sample stories for the examples: [story1] is the one of the spec's
    scenario A; [story2] and [story3] have as many comments as each other. *)
Definition story1 : Story :=
  {| objectID := "1"; url := "https://a.example"; title := "A"; author := "x";
     num_comments := 1; points := 1 |}.

Definition story2 : Story :=
  {| objectID := "2"; url := "https://b.example"; title := "B"; author := "y";
     num_comments := 5; points := 7 |}.

Definition story3 : Story :=
  {| objectID := "3"; url := "https://c.example"; title := "C"; author := "z";
     num_comments := 5; points := 9 |}.

(** * Properties *)

(** ** The result-set reducer *)

Lemma keeps_true item story :
  keeps item story = true <-> objectID story ≠ objectID item.
Proof.
  unfold keeps. rewrite negb_true_iff.
  destruct (String.eqb_spec (objectID item) (objectID story)); split; congruence.
Qed.

Lemma filter_Forall_keeps item (l : list Story) :
  Forall (fun story => objectID story ≠ objectID item) (List.filter (keeps item) l).
Proof.
  induction l as [|x l IH]; simpl; [constructor|].
  destruct (keeps item x) eqn:E; [|exact IH].
  constructor; [by apply keeps_true | exact IH].
Qed.

Lemma filter_sublist {A} (f : A -> bool) (l : list A) :
  List.filter f l `sublist_of` l.
Proof.
  induction l as [|x l IH]; simpl; [constructor|].
  destruct (f x); by constructor.
Qed.

Lemma filter_sublist_max {A} (f : A -> bool) (k l : list A) :
  k `sublist_of` l -> Forall (fun x => f x = true) k ->
  k `sublist_of` List.filter f l.
Proof.
  induction 1 as [|x k l _ IH|x k l _ IH]; intros Hall; simpl.
  - constructor.
  - inversion Hall as [|? ? Hx Hk]; subst. rewrite Hx.
    constructor. by apply IH.
  - destruct (f x); [constructor|]; by apply IH.
Qed.

Lemma filter_all_true {A} (f : A -> bool) (l : list A) :
  Forall (fun x => f x = true) l -> List.filter f l = l.
Proof.
  induction 1 as [|x l Hx _ IH]; simpl; [done|].
  by rewrite Hx, IH.
Qed.

(** C1. In every state, FETCH_INIT sets isLoading and clears isError and
    keeps data; FETCH_SUCCESS clears both flags and replaces data by the
    payload; FETCH_FAILURE clears isLoading, sets isError and keeps data. *)
Theorem storiesReducer_fetch (s : StoriesState) (payload : Stories) :
  (exists s', storiesReducer s STORIES_FETCH_INIT = Some s' /\
     isLoading s' = true /\ isError s' = false /\ data s' = data s) /\
  (exists s', storiesReducer s (STORIES_FETCH_SUCCESS payload) = Some s' /\
     isLoading s' = false /\ isError s' = false /\ data s' = payload) /\
  (exists s', storiesReducer s STORIES_FETCH_FAILURE = Some s' /\
     isLoading s' = false /\ isError s' = true /\ data s' = data s).
Proof. repeat split; eexists; (split; [reflexivity|]); simpl; auto. Qed.

(** C2. REMOVE_STORY(item) never throws; the new data has no entry with the
    objectID of [item]; it is a subsequence of the old data (so relative order
    is kept) and the largest one, since every subsequence of the old data
    without that objectID is a subsequence of it; the flags are untouched; and
    when no entry has the objectID of [item], data is unchanged. *)
Theorem storiesReducer_remove (s : StoriesState) (item : Story) :
  exists s', storiesReducer s (REMOVE_STORY item) = Some s' /\
    Forall (fun story => objectID story ≠ objectID item) (data s') /\
    data s' `sublist_of` data s /\
    (forall l, l `sublist_of` data s ->
               Forall (fun story => objectID story ≠ objectID item) l ->
               l `sublist_of` data s') /\
    isLoading s' = isLoading s /\ isError s' = isError s /\
    (Forall (fun story => objectID story ≠ objectID item) (data s) ->
     data s' = data s).
Proof.
  eexists; split; [reflexivity|]; simpl.
  change (fun story => negb (objectID item =? objectID story)%string)
    with (keeps item).
  repeat split.
  - apply filter_Forall_keeps.
  - apply filter_sublist.
  - intros l Hl Hall. apply filter_sublist_max; [done|].
    eapply Forall_impl; [exact Hall|]. intros x Hx. by apply keeps_true.
  - intros Hall. apply filter_all_true.
    eapply Forall_impl; [exact Hall|]. intros x Hx. by apply keeps_true.
Qed.

Lemma storiesReducer_step (s : StoriesState) (a : StoriesAction) :
  recognized a = true -> flagsConsistent s = true ->
  exists s', storiesReducer s a = Some s' /\ flagsConsistent s' = true /\
    (data s' ≠ data s ->
     (exists payload, a = STORIES_FETCH_SUCCESS payload /\ data s' = payload) \/
     (exists item, a = REMOVE_STORY item /\
                   data s' = List.filter (keeps item) (data s))).
Proof.
  intros Hrec Hs. destruct a as [|payload| |item|ty]; simpl in *;
    try discriminate; eexists; (split; [reflexivity|]); simpl;
    (split; [first [reflexivity | exact Hs]|]); intros Hd.
  - done.
  - left. by exists payload.
  - done.
  - right. by exists item.
Qed.

Lemma dispatchAll_consistent (actions : list StoriesAction) :
  forall s0, flagsConsistent s0 = true ->
    forallb recognized actions = true ->
    exists s, dispatchAll s0 actions = Some s /\ flagsConsistent s = true.
Proof.
  induction actions as [|a rest IH]; intros s0 H0 Hrec; simpl in *.
  - by exists s0.
  - apply andb_true_iff in Hrec as [Ha Hrest].
    destruct (storiesReducer_step s0 a Ha H0) as (s1 & -> & H1 & _).
    by apply IH.
Qed.

(** C8. Every sequence of recognized actions runs from the initial state
    without a throw; in the state it reaches, and in the state after one more
    action, isLoading and isError are not both true; and that action changed
    data only if it was FETCH_SUCCESS (data is then the payload) or
    REMOVE_STORY (data is then the old data filtered). *)
Theorem reachable_flags_and_data
    (actions : list StoriesAction) (a : StoriesAction) :
  forallb recognized (actions ++ [a]) = true ->
  exists s s',
    dispatchAll initialStories actions = Some s /\
    storiesReducer s a = Some s' /\
    dispatchAll initialStories (actions ++ [a]) = Some s' /\
    (isLoading s && isError s = false) /\
    (isLoading s' && isError s' = false) /\
    (data s' ≠ data s ->
     (exists payload, a = STORIES_FETCH_SUCCESS payload /\ data s' = payload) \/
     (exists item, a = REMOVE_STORY item /\
                   data s' = List.filter (keeps item) (data s))).
Proof.
  rewrite forallb_app. intros [Hacts Ha]%andb_true_iff.
  simpl in Ha. rewrite andb_true_r in Ha.
  destruct (dispatchAll_consistent actions initialStories eq_refl Hacts)
    as (s & Hrun & Hs).
  destruct (storiesReducer_step s a Ha Hs) as (s' & Hstep & Hs' & Hdata).
  exists s, s'. repeat split; try done.
  - clear -Hrun Hstep. revert Hrun. generalize initialStories.
    induction actions as [|b rest IH]; intros s0; simpl.
    + intros [= ->]. by rewrite Hstep.
    + destruct (storiesReducer s0 b); [apply IH | done].
  - unfold flagsConsistent in Hs. by apply negb_true_iff in Hs.
  - unfold flagsConsistent in Hs'. by apply negb_true_iff in Hs'.
Qed.

Lemma reachable_flags_and_data_witness :
  forallb recognized
    ([STORIES_FETCH_INIT; STORIES_FETCH_SUCCESS [story1]] ++ [REMOVE_STORY story1])
    = true /\
  exists s s',
    dispatchAll initialStories [STORIES_FETCH_INIT; STORIES_FETCH_SUCCESS [story1]]
      = Some s /\
    storiesReducer s (REMOVE_STORY story1) = Some s' /\
    dispatchAll initialStories
      ([STORIES_FETCH_INIT; STORIES_FETCH_SUCCESS [story1]] ++ [REMOVE_STORY story1])
      = Some s' /\
    (isLoading s && isError s = false) /\
    (isLoading s' && isError s' = false) /\
    (data s' ≠ data s ->
     (exists payload, REMOVE_STORY story1 = STORIES_FETCH_SUCCESS payload /\
                      data s' = payload) \/
     (exists item, REMOVE_STORY story1 = REMOVE_STORY item /\
                   data s' = List.filter (keeps item) (data s))).
Proof.
  split; [reflexivity|].
  apply (reachable_flags_and_data
           [STORIES_FETCH_INIT; STORIES_FETCH_SUCCESS [story1]]
           (REMOVE_STORY story1)).
  reflexivity.
Defined.

(** ** The persistent value cell *)

Lemma setValue_synced (key newValue : string) (c : CellState) :
  storage c !! key = Some (value c) ->
  value (setValue key newValue c) = newValue /\
  storage (setValue key newValue c) !! key = Some newValue.
Proof.
  intros Hc. unfold setValue.
  destruct (String.eqb_spec (value c) newValue) as [<-|Hne]; simpl.
  - done.
  - split; [done|]. unfold setItem. apply lookup_insert_eq.
Qed.

Lemma setValues_synced (key : string) (newValues : list string) :
  forall c, storage c !! key = Some (value c) ->
    value (setValues key newValues c) = default (value c) (last newValues) /\
    storage (setValues key newValues c) !! key
      = Some (value (setValues key newValues c)).
Proof.
  unfold setValues.
  induction newValues as [|v rest IH]; intros c Hc; simpl; [done|].
  destruct (setValue_synced key v c Hc) as [Hv Hs].
  destruct (IH (setValue key v c)) as [IHv IHs]; [by rewrite Hv|].
  split; [|exact IHs].
  rewrite IHv, Hv. destruct rest as [|w rest]; [reflexivity|].
  rewrite last_cons_cons.
  destruct (last (w :: rest)) eqn:E; [reflexivity | by apply last_None in E].
Qed.

(** C7, as the code has it.  On initialization the held value is the string
    stored under the key when there is one and it is not empty, and the
    caller's default otherwise (key absent, or the empty string stored).
    After any sequence of changes the held value is the last value set and
    the store holds it under the same key. *)
Theorem useSemiPersistentState_spec
    (key initialState : string) (store : localStorage) (newValues : list string) :
  let c0 := useSemiPersistentState_init key initialState store in
  let c := setValues key newValues c0 in
  value c0 = match store !! key with
             | Some s => if String.eqb s "" then initialState else s
             | None => initialState
             end /\
  value c = default (value c0) (last newValues) /\
  storage c !! key = Some (value c).
Proof.
  intros c0 c. split.
  - subst c0. unfold useSemiPersistentState_init, getItem. simpl.
    destruct (store !! key) as [[|a s]|]; reflexivity.
  - apply setValues_synced. subst c0.
    unfold useSemiPersistentState_init, setItem. simpl. apply lookup_insert_eq.
Qed.

(** C7 as stated fails: with the empty string stored under the key, the key
    is present, yet the held value is the default and not the stored string. *)
Lemma useSemiPersistentState_empty_stored :
  let store : localStorage := {[ "search" := "" ]} in
  store !! "search" = Some "" /\
  value (useSemiPersistentState_init "search" "React" store) = "React" /\
  value (useSemiPersistentState_init "search" "React" store) ≠ "".
Proof. vm_compute. repeat split; discriminate. Qed.

(** ** Search history *)

Lemma prefix_append (p t : string) : String.prefix p (p +:+ t) = true.
Proof.
  induction p as [|c p IH]; simpl.
  - by destruct t.
  - destruct (Ascii.ascii_dec c c); [exact IH | done].
Qed.

Lemma substring_all (t : string) : String.substring 0 (String.length t) t = t.
Proof. induction t as [|c t IH]; simpl; [done | by rewrite IH]. Qed.

Lemma substring_append (p t : string) :
  String.substring (String.length p)
                   (String.length (p +:+ t) - String.length p) (p +:+ t) = t.
Proof.
  induction p as [|c p IH]; simpl.
  - rewrite Nat.sub_0_r. apply substring_all.
  - exact IH.
Qed.

Lemma replace_unfold (p r s : string) :
  replace p r s =
  if String.prefix p s
  then r +:+ String.substring (String.length p)
                              (String.length s - String.length p) s
  else match s with
       | EmptyString => EmptyString
       | String c rest => String c (replace p r rest)
       end.
Proof. destruct s; reflexivity. Qed.

Lemma replace_prefix (p t : string) : replace p "" (p +:+ t) = t.
Proof.
  rewrite replace_unfold, prefix_append, substring_append. reflexivity.
Qed.

(** Stripping the endpoint inverts the construction of the URL. *)
Lemma extractSearchTerm_getUrl (term : string) :
  extractSearchTerm (getUrl term) = term.
Proof. apply replace_prefix. Qed.

Lemma getLastSearches_getUrl (terms : list string) :
  getLastSearches (map getUrl terms) = slice_last 5 terms.
Proof.
  unfold getLastSearches, slice_last.
  rewrite length_map, skipn_map, map_map.
  erewrite map_ext; [apply map_id|]. apply extractSearchTerm_getUrl.
Qed.

(** C5, as the code has it.  For the URLs issued for any sequence of search
    terms, the history is the terms of the last five URLs, or of all of them
    when fewer were issued, each recovered by stripping the endpoint, in the
    order of issue (most recent last); a term searched more than once among
    them appears as often. *)
Theorem getLastSearches_spec (terms : list string) :
  let history := getLastSearches (map getUrl terms) in
  history = slice_last 5 terms /\
  length history = Nat.min 5 (length terms) /\
  exists older, terms = (older ++ history)%list.
Proof.
  intros history. subst history. rewrite getLastSearches_getUrl.
  unfold slice_last. repeat split.
  - rewrite length_drop. lia.
  - exists (take (length terms - 5) terms). by rewrite take_drop.
Qed.

(** C5 as stated fails: submitting the initial term once more puts the same
    term into the history twice, so its entries are not distinct. *)
Lemma getLastSearches_repeats :
  lastSearches (handleSearchSubmit (initialApp "React")) = ["React"; "React"] /\
  ~ NoDup (lastSearches (handleSearchSubmit (initialApp "React"))).
Proof.
  split; [reflexivity|].
  intros H. change (NoDup ["React"; "React"]) in H.
  apply NoDup_cons in H as [Hin _]. apply Hin. by left.
Qed.

(** C6 at a failing input.  With "React" searched and "Redux" typed but not
    submitted, the history row shows "React"; selecting it issues the URL of
    "Redux", the content of the input field, not that of the selected term.
    For every term, selecting it does what submitting the form does. *)
Theorem handleLastSearch_uses_input_field :
  let app := handleSearchInput "Redux" (initialApp "React") in
  lastSearches app = ["React"] /\
  urls (handleLastSearch "React" app) = (urls app ++ [getUrl "Redux"])%list /\
  urls (handleLastSearch "React" app) ≠ (urls app ++ [getUrl "React"])%list /\
  forall term app', handleLastSearch term app' = handleSearchSubmit app'.
Proof.
  repeat split; try reflexivity.
  vm_compute. discriminate.
Qed.

Lemma appStep_prefix (app : AppState) (e : AppEvent) :
  urls app `prefix_of` urls (appStep app e).
Proof.
  destruct e; simpl; first [reflexivity | by eexists].
Qed.

(** C10. Submitting a search appends exactly one element, the URL of the
    submitted term, to the list of issued URLs and keeps what was there, in
    order; and through any sequence of input, submit and history events the
    list only grows at its end. *)
Theorem handleSearch_append_only
    (app : AppState) (term : string) (events : list AppEvent) :
  urls (handleSearch term app) = (urls app ++ [getUrl term])%list /\
  urls (handleSearchSubmit app) = (urls app ++ [getUrl (searchTerm app)])%list /\
  urls app `prefix_of` urls (appRun app events).
Proof.
  repeat split; try reflexivity.
  unfold appRun. revert app.
  induction events as [|e rest IH]; intros app; simpl; [reflexivity|].
  etrans; [apply appStep_prefix | apply IH].
Qed.

(** ** The sort controller *)

(** C3. Selecting the active key keeps the key and negates isReverse;
    selecting any other key makes it the active key with isReverse false. *)
Theorem handleSort_spec (sort : SortState) (key : SortKey) :
  handleSort key sort =
  if decide (key = sortKey sort)
  then {| sortKey := sortKey sort; isReverse := negb (isReverse sort) |}
  else {| sortKey := key; isReverse := false |}.
Proof.
  unfold handleSort. destruct sort as [k r]; simpl.
  case_decide as H; [subst; destruct k; reflexivity|].
  destruct k, key; simpl; try reflexivity; congruence.
Qed.

(** *** Arrays in the store *)

Lemma fresh_lookup (h : heap) : h !! fresh (dom h) = None.
Proof. apply not_elem_of_dom, is_fresh. Qed.

Lemma fresh_ne (h : heap) (a : ref) (ys : list Story) :
  h !! a = Some ys -> fresh (dom h) ≠ a.
Proof. intros Ha E. by rewrite <- E, fresh_lookup in Ha. Qed.

Lemma sortBy_run (arr : ref) (p : Property) (h : heap) (xs : list Story) :
  h !! arr = Some xs ->
  sortBy arr p h
  = Some (fresh (dom h), <[fresh (dom h) := stable_sort (prop_leb p) xs]> h).
Proof. intros H. unfold sortBy. by rewrite H. Qed.

Lemma reverse_run (arr : ref) (h : heap) (xs : list Story) :
  h !! arr = Some xs ->
  reverse arr h = Some (arr, <[arr := rev xs]> h).
Proof. intros H. unfold reverse. by rewrite H. Qed.

Lemma reverse_fresh (r : ref) (h : heap) (ys : list Story) :
  reverse r (<[r := ys]> h) = Some (r, <[r := rev ys]> h).
Proof.
  erewrite reverse_run; [|apply lookup_insert_eq]. by rewrite insert_insert_eq.
Qed.

(** [SORTS.NONE] hands back its argument, so reversing its result rewrites
    the input array. *)
Lemma sortedList_NONE_reversed (arr : ref) (h : heap) (xs : list Story) :
  h !! arr = Some xs ->
  sortedList {| sortKey := NONE; isReverse := true |} arr h
  = Some (arr, <[arr := rev xs]> h).
Proof. intros H. unfold sortedList, bind; simpl. by apply reverse_run. Qed.

(** In every other sort state the result is either the input array itself,
    untouched, or a new array. *)
Lemma sortedList_run (sort : SortState) (arr : ref) (h : heap) (xs : list Story) :
  h !! arr = Some xs ->
  (sortKey sort = NONE -> isReverse sort = false) ->
  sortedList sort arr h = Some (arr, h) /\ sortedValue sort xs = xs \/
  sortedList sort arr h
  = Some (fresh (dom h), <[fresh (dom h) := sortedValue sort xs]> h).
Proof.
  intros H Hnone. destruct sort as [k r]; simpl in Hnone.
  unfold sortedList, sortedValue, SORTS, bind;
    cbn [sortKey isReverse sortValue].
  destruct k; [rewrite Hnone by done; left; done|..]; right; destruct r;
    rewrite (sortBy_run _ _ _ _ H), ?reverse_fresh; reflexivity.
Qed.

(** The array the computation returns holds [sortedValue], in every sort
    state. *)
Lemma sortedList_value (sort : SortState) (arr : ref) (h : heap) (xs : list Story) :
  h !! arr = Some xs ->
  exists r h', sortedList sort arr h = Some (r, h') /\
               h' !! r = Some (sortedValue sort xs).
Proof.
  intros H.
  assert (sort = {| sortKey := NONE; isReverse := true |} \/
          (sortKey sort = NONE -> isReverse sort = false)) as [-> | Hnone].
  { destruct sort as [[] []]; simpl; auto; right; done. }
  - rewrite (sortedList_NONE_reversed _ _ _ H).
    eexists _, _; split; [done|]. apply lookup_insert_eq.
  - destruct (sortedList_run sort arr h xs H Hnone) as [[-> Hv] | ->].
    + exists arr, h. by rewrite Hv.
    + eexists _, _; split; [done|]. apply lookup_insert_eq.
Qed.

(** The header buttons never lead to the state with key NONE and isReverse
    set: after a click the key is the clicked one. *)
Lemma clickHeaders_not_NONE_reversed (clicks : list SortKey) :
  Forall (fun k => k ∈ headerKeys) clicks ->
  sortKey (clickHeaders clicks initialSort) = NONE ->
  isReverse (clickHeaders clicks initialSort) = false.
Proof.
  unfold clickHeaders.
  assert (forall s, (sortKey s = NONE -> isReverse s = false) ->
            Forall (fun k => k ∈ headerKeys) clicks ->
            sortKey (foldl (fun s k => handleSort k s) s clicks) = NONE ->
            isReverse (foldl (fun s k => handleSort k s) s clicks) = false)
    as Hgen; [|by apply Hgen].
  induction clicks as [|k rest IH]; intros s Hs Hall; simpl; [done|].
  inversion Hall as [|? ? Hk Hrest]; subst.
  apply IH; [|done]. simpl. intros ->.
  unfold headerKeys in Hk. rewrite !elem_of_cons, elem_of_nil in Hk.
  intuition discriminate.
Qed.

(** The sort states of [List] are those the header buttons lead to from the
    initial one: the initial state, and every header key with isReverse
    either way.  They are the states in which key NONE does not come with
    isReverse set. *)
Lemma sort_state_reachable_iff (sort : SortState) :
  (sortKey sort = NONE -> isReverse sort = false) <->
  exists clicks, Forall (fun k => k ∈ headerKeys) clicks /\
                 clickHeaders clicks initialSort = sort.
Proof.
  split.
  - intros Hnone. destruct sort as [k r]. simpl in Hnone.
    destruct k, r; try (by specialize (Hnone eq_refl));
      [ exists []
      | exists [TITLE; TITLE] | exists [TITLE]
      | exists [AUTHOR; AUTHOR] | exists [AUTHOR]
      | exists [COMMENT; COMMENT] | exists [COMMENT]
      | exists [POINT; POINT] | exists [POINT] ];
      (split; [|reflexivity]);
      repeat (apply Forall_cons; split;
              [unfold headerKeys; rewrite !elem_of_cons; tauto|]);
      constructor.
  - intros (clicks & Hclicks & <-).
    by apply clickHeaders_not_NONE_reversed.
Qed.



(** Why the state matters: with key NONE and isReverse set, a state [List]
    is never in, the view would be computed by reversing the input array in
    place. *)
Lemma sortedList_NONE_reversed_mutates :
  let h : heap := {[ 0%nat := [story1; story2] ]} in
  let sort := {| sortKey := NONE; isReverse := true |} in
  h !! 0%nat = Some [story1; story2] /\
  exists r h', sortedList sort 0%nat h = Some (r, h') /\
    h' !! 0%nat = Some [story2; story1] /\
    h' !! 0%nat ≠ h !! 0%nat.
Proof.
  intros h sort. split; [reflexivity|].
  eexists _, _. split; [by apply sortedList_NONE_reversed|].
  rewrite lookup_insert_eq. split; [reflexivity|].
  change (h !! 0%nat) with (Some [story1; story2]). discriminate.
Qed.

(** *** Sorting a list that is in order *)

Lemma String_leb_trans (a b c : string) :
  String.leb a b = true -> String.leb b c = true -> String.leb a c = true.
Proof.
  unfold String.leb. intros Hab Hbc.
  destruct (String.compare a b) eqn:Eab; [| |discriminate].
  - apply String.compare_eq_iff in Eab. by subst.
  - destruct (String.compare b c) eqn:Ebc; [| |discriminate].
    + apply String.compare_eq_iff in Ebc. subst. by rewrite Eab.
    + apply OrderedTypeEx.String_as_OT.cmp_lt in Eab, Ebc.
      pose proof (OrderedTypeEx.String_as_OT.lt_trans _ _ _ Eab Ebc) as Hac.
      apply OrderedTypeEx.String_as_OT.cmp_lt in Hac.
      unfold OrderedTypeEx.String_as_OT.cmp in Hac. by rewrite Hac.
Qed.

Lemma prop_leb_trans (p : Property) (a b c : Story) :
  prop_leb p a b = true -> prop_leb p b c = true -> prop_leb p a c = true.
Proof.
  destruct p; simpl; try apply String_leb_trans; intros; lia.
Qed.

Lemma prop_leb_antisym (p : Property) (a b : Story) :
  prop_leb p a b = true -> prop_leb p b a = true -> prop_eqb p a b = true.
Proof.
  destruct p; simpl; intros Hab Hba.
  - apply String.eqb_eq. by apply String.leb_antisym.
  - apply String.eqb_eq. by apply String.leb_antisym.
  - lia.
  - lia.
Qed.

Section Sorting.
Context {A : Type} (le : A -> A -> bool).

Lemma pairwise_adjacent (l : list A) :
  pairwise le l = true -> adjacent le l = true.
Proof.
  induction l as [|x [|y rest] IH]; simpl in *; try done.
  intros [[Hxy _]%andb_true_iff Hrest]%andb_true_iff.
  rewrite Hxy. by apply IH.
Qed.

Lemma adjacent_pairwise (l : list A) :
  (forall a b c, le a b = true -> le b c = true -> le a c = true) ->
  adjacent le l = true -> pairwise le l = true.
Proof.
  intros Htrans. induction l as [|x [|y rest] IH]; try done.
  intros [Hxy Hrest]%andb_true_iff.
  specialize (IH Hrest). change (pairwise le (x :: y :: rest))
    with (forallb (le x) (y :: rest) && pairwise le (y :: rest)).
  rewrite IH, andb_true_r. simpl. rewrite Hxy. simpl.
  simpl in IH. apply andb_true_iff in IH as [Hy _].
  rewrite forallb_forall in *. intros z Hz. eauto.
Qed.

Lemma pairwise_and (r1 r2 r3 : A -> A -> bool) (l : list A) :
  (forall a b, r1 a b = true -> r2 a b = true -> r3 a b = true) ->
  pairwise r1 l = true -> pairwise r2 l = true -> pairwise r3 l = true.
Proof.
  intros Himp. induction l as [|x rest IH]; simpl; [done|].
  intros [H1 H1']%andb_true_iff [H2 H2']%andb_true_iff.
  rewrite IH by done. rewrite andb_true_r.
  rewrite forallb_forall in *. eauto.
Qed.

Lemma insert_sorted_first (x : A) (l : list A) :
  forallb (le x) l = true -> insert_sorted le x l = x :: l.
Proof.
  destruct l as [|y rest]; simpl; [done|].
  by intros [-> _]%andb_true_iff.
Qed.

Lemma insert_sorted_last (x : A) (l : list A) :
  forallb (fun y => negb (le x y)) l = true ->
  insert_sorted le x l = (l ++ [x])%list.
Proof.
  induction l as [|y rest IH]; simpl; [done|].
  intros [Hy Hrest]%andb_true_iff. apply negb_true_iff in Hy.
  by rewrite Hy, IH.
Qed.

(** A list in ascending order is its own stable sort. *)
Lemma stable_sort_ascending (l : list A) :
  pairwise le l = true -> stable_sort le l = l.
Proof.
  unfold stable_sort. induction l as [|x rest IH]; simpl; [done|].
  intros [Hx Hrest]%andb_true_iff.
  rewrite IH by done. by apply insert_sorted_first.
Qed.

(** A list in strictly descending order is sorted into its reverse. *)
Lemma stable_sort_strictly_descending (l : list A) :
  pairwise (fun a b => negb (le a b)) l = true ->
  stable_sort le l = rev l.
Proof.
  unfold stable_sort. induction l as [|x rest IH]; simpl; [done|].
  intros [Hx Hrest]%andb_true_iff.
  rewrite IH by done. apply insert_sorted_last.
  rewrite forallb_forall in *. intros y Hy. apply Hx. by apply in_rev.
Qed.
End Sorting.

Lemma sortBy_ascending (p : Property) (xs : list Story) :
  adjacent (prop_leb p) xs = true -> stable_sort (prop_leb p) xs = xs.
Proof.
  intros H. apply stable_sort_ascending, adjacent_pairwise; [|done].
  apply prop_leb_trans.
Qed.

Lemma sortBy_descending (p : Property) (xs : list Story) :
  adjacent (fun a b => prop_leb p b a) xs = true ->
  pairwise (fun a b => negb (prop_eqb p a b)) xs = true ->
  rev (stable_sort (prop_leb p) xs) = xs.
Proof.
  intros Hord Hties.
  rewrite stable_sort_strictly_descending; [apply rev_involutive|].
  apply adjacent_pairwise in Hord; [|by eauto using prop_leb_trans].
  eapply pairwise_and; [|exact Hord|exact Hties].
  simpl. intros a b Hba Hne. destruct (prop_leb p a b) eqn:Hab; [|done].
  by rewrite (prop_leb_antisym p a b Hab Hba) in Hne.
Qed.

Lemma sortedValue_ordered (sort : SortState) (xs : list Story) :
  ordered sort xs = true ->
  (sortKey sort = NONE -> isReverse sort = false) ->
  (descending sort = true -> noTies sort xs = true) ->
  sortedValue sort xs = xs.
Proof.
  destruct sort as [k r]. unfold ordered, noTies, descending, sortedValue.
  intros Hord Hnone Hties.
  destruct k, r; simpl in *;
    rewrite ?rev_involutive;
    first [ reflexivity
          | by discriminate Hnone
          | by apply sortBy_ascending
          | apply sortBy_descending; [done | by apply Hties] ].
Qed.

(** C9, as the code has it.  Let a list be in the order of a sort key and
    direction (ascending for TITLE and AUTHOR, descending for COMMENT and
    POINT, the opposite with isReverse; any list for NONE without isReverse).
    Sorting it by that key and direction returns an array with the same
    content when the direction is ascending, and when it is descending if no
    two entries have the same value of the key. *)
Theorem sortedList_of_ordered
    (sort : SortState) (arr : ref) (h : heap) (xs : list Story) :
  h !! arr = Some xs ->
  ordered sort xs = true ->
  (sortKey sort = NONE -> isReverse sort = false) ->
  (descending sort = true -> noTies sort xs = true) ->
  exists r h', sortedList sort arr h = Some (r, h') /\ h' !! r = Some xs.
Proof.
  intros H Hord Hnone Hties.
  destruct (sortedList_value sort arr h xs H) as (r & h' & Hrun & Hr).
  exists r, h'. split; [done|].
  by rewrite Hr, sortedValue_ordered.
Qed.

Lemma sortedList_of_ordered_witness :
  let xs := [story3; story2; story1] in
  let h : heap := {[ 0%nat := xs ]} in
  let sort := {| sortKey := POINT; isReverse := false |} in
  h !! 0%nat = Some xs /\
  ordered sort xs = true /\
  descending sort = true /\
  noTies sort xs = true /\
  exists r h', sortedList sort 0%nat h = Some (r, h') /\ h' !! r = Some xs.
Proof.
  intros xs h sort. repeat split.
  apply (sortedList_of_ordered sort 0%nat h xs).
  - reflexivity.
  - reflexivity.
  - simpl. discriminate.
  - reflexivity.
Defined.

(** C9 as stated fails: two stories with as many comments as each other are
    in descending order of comments, and sorting them by COMMENT returns them
    in the opposite order. *)
Lemma sortedList_COMMENT_swaps_ties :
  let xs := [story2; story3] in
  let h : heap := {[ 0%nat := xs ]} in
  let sort := {| sortKey := COMMENT; isReverse := false |} in
  h !! 0%nat = Some xs /\
  ordered sort xs = true /\
  exists r h', sortedList sort 0%nat h = Some (r, h') /\
    h' !! r = Some [story3; story2] /\
    h' !! r ≠ Some xs.
Proof.
  intros xs h sort. repeat split.
  destruct (sortedList_value sort 0%nat h xs eq_refl) as (r & h' & Hrun & Hr).
  exists r, h'. split; [done|].
  rewrite Hr. split; [reflexivity|]. vm_compute. discriminate.
Qed.

(** * Further properties of the source *)

(** ** Sequences of dispatches *)

Lemma filter_filter_and {A} (f g : A -> bool) (l : list A) :
  List.filter f (List.filter g l) = List.filter (fun x => g x && f x) l.
Proof.
  induction l as [|x l IH]; simpl; [done|].
  destruct (g x); simpl; [|exact IH]. destruct (f x); by rewrite IH.
Qed.

Lemma dispatchAll_app (s : StoriesState) (pre post : list StoriesAction) :
  dispatchAll s (pre ++ post) =
  match dispatchAll s pre with
  | Some s1 => dispatchAll s1 post
  | None => None
  end.
Proof.
  revert s. induction pre as [|a pre IH]; intros s; simpl; [done|].
  destruct (storiesReducer s a); [apply IH | done].
Qed.

Lemma dispatchAll_recognized (actions : list StoriesAction) (s : StoriesState) :
  forallb recognized actions = true -> is_Some (dispatchAll s actions).
Proof.
  revert s. induction actions as [|a rest IH]; intros s; simpl; [by eauto|].
  intros [Ha Hrest]%andb_true_iff.
  destruct a; simpl in *; try discriminate; by apply IH.
Qed.

Lemma dispatchAll_noNewData (post : list StoriesAction) (s : StoriesState) :
  forallb noNewData post = true ->
  exists s', dispatchAll s post = Some s' /\
    data s' = List.filter (notRemoved (removedItems post)) (data s).
Proof.
  revert s. induction post as [|a rest IH]; intros s; simpl.
  - intros _. exists s. split; [done|].
    symmetry. apply filter_all_true, Forall_forall. done.
  - intros [Ha Hrest]%andb_true_iff.
    destruct a as [|payload| |item|ty]; simpl in *; try discriminate;
      match goal with
      | |- context [dispatchAll ?s1 rest] =>
          destruct (IH s1 Hrest) as (s' & -> & Hd)
      end; exists s';
      (split; [done|]); rewrite Hd; simpl; [done|done|].
    apply filter_filter_and.
Qed.

(** X1. A sequence of dispatches ends in a throw exactly when one of its
    actions has a type the reducer does not know; the four known kinds never
    throw, in any state and any order. *)
Theorem dispatchAll_throws_iff (s : StoriesState) (actions : list StoriesAction) :
  dispatchAll s actions = None <-> forallb recognized actions = false.
Proof.
  split.
  - intros Hnone. destruct (forallb recognized actions) eqn:E; [|done].
    destruct (dispatchAll_recognized actions s E) as [s' Hs']. congruence.
  - revert s. induction actions as [|a rest IH]; intros s; simpl; [done|].
    destruct a; simpl; try apply IH. done.
Qed.

(** X2. Removing two stories gives the same state in either order, and
    removing a story a second time changes nothing. *)
Theorem remove_story_order_irrelevant (s : StoriesState) (a b : Story) :
  dispatchAll s [REMOVE_STORY a; REMOVE_STORY b]
  = dispatchAll s [REMOVE_STORY b; REMOVE_STORY a] /\
  dispatchAll s [REMOVE_STORY a; REMOVE_STORY a]
  = dispatchAll s [REMOVE_STORY a].
Proof.
  simpl. split; do 2 f_equal; rewrite !filter_filter_and.
  - apply filter_ext. intros x. apply andb_comm.
  - apply filter_ext. intros x. apply andb_diag.
Qed.

(** X3. Dispatching REMOVE_STORY for each item of a list, from any state,
    leaves exactly the stories whose objectID is the objectID of none of the
    items, in their old order, and leaves both flags as they were. *)
Theorem remove_stories_all (s : StoriesState) (items : list Story) :
  exists s', dispatchAll s (map REMOVE_STORY items) = Some s' /\
    data s' = List.filter (notRemoved items) (data s) /\
    Forall (fun story =>
              Forall (fun item => objectID story ≠ objectID item) items)
           (data s') /\
    isLoading s' = isLoading s /\ isError s' = isError s.
Proof.
  assert (exists s', dispatchAll s (map REMOVE_STORY items) = Some s' /\
            data s' = List.filter (notRemoved items) (data s) /\
            isLoading s' = isLoading s /\ isError s' = isError s)
    as (s' & Hrun & Hd & Hl & He).
  { revert s. induction items as [|item rest IH]; intros s; simpl.
    - exists s. repeat split; try done.
      symmetry. apply filter_all_true, Forall_forall. done.
    - match goal with
      | |- context [dispatchAll ?s1 (map REMOVE_STORY rest)] =>
          destruct (IH s1) as (s' & -> & Hd & Hl & He)
      end.
      exists s'. repeat split; try done.
      rewrite Hd. simpl. apply filter_filter_and. }
  exists s'. repeat split; try done.
  rewrite Hd. apply Forall_forall.
  intros story [_ Hkept]%list_elem_of_In%filter_In.
  apply Forall_forall. intros item Hitem%list_elem_of_In.
  unfold notRemoved in Hkept. rewrite forallb_forall in Hkept.
  by apply keeps_true, Hkept.
Qed.

(** X4. Whatever was dispatched before a FETCH_SUCCESS, as long as it did not
    throw, and whatever flag changes and removals come after it, the data are
    the payload of that FETCH_SUCCESS without the stories removed since. *)
Theorem data_after_last_success
    (s : StoriesState) (pre post : list StoriesAction) (hits : Stories) :
  forallb recognized pre = true ->
  forallb noNewData post = true ->
  exists s', dispatchAll s (pre ++ STORIES_FETCH_SUCCESS hits :: post) = Some s' /\
    data s' = List.filter (notRemoved (removedItems post)) hits.
Proof.
  intros Hpre Hpost. rewrite dispatchAll_app.
  destruct (dispatchAll_recognized pre s Hpre) as [s1 ->]. simpl.
  destruct (dispatchAll_noNewData post
              {| data := hits; isLoading := false; isError := false |} Hpost)
    as (s' & -> & Hd).
  by exists s'.
Qed.

Lemma data_after_last_success_witness :
  let pre := [STORIES_FETCH_INIT; STORIES_FETCH_INIT;
              STORIES_FETCH_SUCCESS [story2]] in
  let post := [REMOVE_STORY story1; STORIES_FETCH_INIT] in
  forallb recognized pre = true /\
  forallb noNewData post = true /\
  exists s',
    dispatchAll initialStories
      (pre ++ STORIES_FETCH_SUCCESS [story1; story3] :: post) = Some s' /\
    data s' = List.filter (notRemoved (removedItems post)) [story1; story3].
Proof.
  intros pre post. split; [reflexivity|]. split; [reflexivity|].
  apply (data_after_last_success initialStories pre post [story1; story3]);
    reflexivity.
Defined.

(** ** The issued URLs, the history row and the fetch *)

Lemma slice_last_snoc {A} (n : nat) (l : list A) (x : A) :
  slice_last (S n) (l ++ [x]) = (slice_last n l ++ [x])%list.
Proof.
  unfold slice_last. rewrite length_app. simpl.
  replace (length l + 1 - S n)%nat with (length l - n)%nat by lia.
  apply drop_app_le. lia.
Qed.

Lemma appRun_urls_built (app : AppState) (events : list AppEvent) :
  (exists older t, urls app = (older ++ [getUrl t])%list /\
     Forall (fun u => getUrl (extractSearchTerm u) = u) older) ->
  exists older t, urls (appRun app events) = (older ++ [getUrl t])%list /\
    Forall (fun u => getUrl (extractSearchTerm u) = u) older.
Proof.
  unfold appRun. revert app.
  induction events as [|e rest IH]; intros app Happ; simpl; [done|].
  apply IH. destruct Happ as (older & t & Hu & Hbuilt).
  destruct e as [v| |term]; simpl.
  - by exists older, t.
  - exists (older ++ [getUrl t])%list, (searchTerm app). rewrite Hu.
    split; [done|]. apply Forall_app. split; [done|].
    constructor; [|done]. by rewrite extractSearchTerm_getUrl.
  - exists (older ++ [getUrl t])%list, (searchTerm app). rewrite Hu.
    split; [done|]. apply Forall_app. split; [done|].
    constructor; [|done]. by rewrite extractSearchTerm_getUrl.
Qed.

Lemma initialApp_urls_built (term : string) :
  exists older t, urls (initialApp term) = (older ++ [getUrl t])%list /\
    Forall (fun u => getUrl (extractSearchTerm u) = u) older.
Proof. by exists [], term. Qed.

(** X5. After any sequence of input, submit and history events the list of
    issued URLs ends with the URL of some term, so the last URL, the one a
    fetch asks for, is never undefined; and that term is the last entry of
    the history row. *)
Theorem lastUrl_is_last_search (term0 : string) (events : list AppEvent) :
  let app := appRun (initialApp term0) events in
  exists t,
    lastUrl (urls app) = Some (getUrl t) /\
    last (lastSearches app) = Some t.
Proof.
  intros app.
  destruct (appRun_urls_built (initialApp term0) events
              (initialApp_urls_built term0)) as (older & t & Hu & _).
  fold app in Hu. exists t. unfold lastUrl. split.
  - rewrite Hu. apply last_snoc.
  - unfold lastSearches, getLastSearches.
    rewrite Hu, slice_last_snoc, map_app. simpl.
    by rewrite last_snoc, extractSearchTerm_getUrl.
Qed.

(** X6. After any sequence of events the history row is not empty, has at
    most five entries, and building the URL of each entry gives back the last
    five issued URLs (all of them when there are fewer). *)
Theorem lastSearches_rebuild_urls (term0 : string) (events : list AppEvent) :
  let app := appRun (initialApp term0) events in
  lastSearches app ≠ [] /\
  length (lastSearches app) <= 5 /\
  map getUrl (lastSearches app) = slice_last 5 (urls app).
Proof.
  intros app.
  destruct (appRun_urls_built (initialApp term0) events
              (initialApp_urls_built term0)) as (older & t & Hu & Hbuilt).
  fold app in Hu. unfold lastSearches, getLastSearches.
  repeat split.
  - rewrite Hu, slice_last_snoc, map_app. simpl. by intros []%app_eq_nil.
  - rewrite length_map. unfold slice_last. rewrite length_drop. lia.
  - rewrite map_map. erewrite map_ext_Forall; [apply map_id|].
    unfold slice_last. apply Forall_drop. rewrite Hu. apply Forall_app.
    split; [done|]. constructor; [|done]. by rewrite extractSearchTerm_getUrl.
Qed.

(** X7. The revision with the history and the revision with one URL agree:
    under the same inputs and submissions of the form, the search term is the
    same and the last issued URL of the one is the active URL of the other. *)
Theorem history_revision_matches_single_url
    (term0 : string) (events : list FormEvent) :
  let app := appRun (initialApp term0) (map formEvent events) in
  let st := formRun (initialUrlState term0) events in
  searchTerm app = formTerm st /\ last (urls app) = Some (activeUrl st).
Proof.
  unfold appRun, formRun.
  assert (forall app st,
            searchTerm app = formTerm st /\ last (urls app) = Some (activeUrl st) ->
            searchTerm (foldl appStep app (map formEvent events))
            = formTerm (foldl formStep st events) /\
            last (urls (foldl appStep app (map formEvent events)))
            = Some (activeUrl (foldl formStep st events))) as Hgen.
  { induction events as [|e rest IH]; intros app st [Ht Hu]; simpl; [done|].
    apply IH. destruct e as [v|]; simpl; [done|].
    split; [done|]. rewrite last_snoc. unfold getUrl. by rewrite Ht. }
  by apply Hgen.
Qed.

Lemma prefix_split (p u : string) :
  String.prefix p u = true -> exists b, u = p +:+ b.
Proof.
  revert u. induction p as [|c p IH]; intros u; simpl.
  - intros _. by exists u.
  - destruct u as [|d u]; simpl; [discriminate|].
    destruct (Ascii.ascii_dec c d) as [->|]; [|discriminate].
    intros [b ->]%IH. by exists b.
Qed.

Lemma replace_at_prefix (p r u b : string) :
  u = p +:+ b -> replace p r u = r +:+ b.
Proof.
  intros ->. by rewrite replace_unfold, prefix_append, substring_append.
Qed.

(** [replace] finds the leftmost occurrence of the pattern, if there is one,
    and rewrites that occurrence only. *)
Lemma replace_leftmost (p r u : string) :
  (forall a b, u ≠ a +:+ p +:+ b) /\ replace p r u = u \/
  exists a b, u = a +:+ p +:+ b /\
    (forall a' b', u = a' +:+ p +:+ b' -> String.length a <= String.length a') /\
    replace p r u = a +:+ r +:+ b.
Proof.
  induction u as [|c u IH].
  - destruct (String.prefix p "") eqn:E.
    + right. apply prefix_split in E as [b E]. exists "", b.
      split; [exact E|]. split; [simpl; lia|].
      exact (replace_at_prefix p r _ b E).
    + left. split; [|by rewrite replace_unfold, E].
      intros [|c a] b Hu; [|discriminate].
      pose proof (prefix_append p b) as Hp.
        change (p +:+ b) with ("" +:+ p +:+ b) in Hp.
        rewrite <- Hu in Hp. congruence.
  - destruct (String.prefix p (String c u)) eqn:E.
    + right. apply prefix_split in E as [b E]. exists "", b.
      split; [exact E|]. split; [simpl; lia|].
      exact (replace_at_prefix p r _ b E).
    + rewrite replace_unfold, E.
      destruct IH as [[Habsent ->] | (a & b & Hu & Hmin & ->)].
      * left. split; [|done]. intros [|c' a] b Hu.
        -- pose proof (prefix_append p b) as Hp.
        change (p +:+ b) with ("" +:+ p +:+ b) in Hp.
        rewrite <- Hu in Hp. congruence.
        -- injection Hu as _ Hu. by destruct (Habsent a b).
      * right. exists (String c a), b. split; [by rewrite Hu at 1|].
        split; [|done]. intros [|c' a'] b' Hu'.
        -- pose proof (prefix_append p b') as Hp.
           change (p +:+ b') with ("" +:+ p +:+ b') in Hp.
           rewrite <- Hu' in Hp. congruence.
        -- injection Hu' as _ Hu'. simpl. apply le_n_S. by eapply Hmin.
Qed.

(** X8. extractSearchTerm removes the leftmost occurrence of the endpoint
    from its argument and changes nothing else: either the endpoint does not
    occur in the argument, which is then the result, or the argument is
    [a], the endpoint, [b], with no occurrence of the endpoint starting
    further left, and the result is [a] followed by [b]. *)
Theorem extractSearchTerm_leftmost (u : string) :
  (forall a b, u ≠ a +:+ API_ENDPOINT +:+ b) /\ extractSearchTerm u = u \/
  exists a b, u = a +:+ API_ENDPOINT +:+ b /\
    (forall a' b', u = a' +:+ API_ENDPOINT +:+ b' ->
                   String.length a <= String.length a') /\
    extractSearchTerm u = a +:+ b.
Proof. apply (replace_leftmost API_ENDPOINT "" u). Qed.

(** X9. Different search terms have different URLs. *)
Theorem getUrl_distinct (a b : string) : a ≠ b -> getUrl a ≠ getUrl b.
Proof.
  intros Hne E. apply Hne.
  by rewrite <- (extractSearchTerm_getUrl a), E, extractSearchTerm_getUrl.
Qed.

Lemma getUrl_distinct_witness :
  "React" ≠ "Redux" /\ getUrl "React" ≠ getUrl "Redux".
Proof.
  assert ("React" ≠ "Redux") as H by discriminate.
  split; [exact H|]. apply (getUrl_distinct "React" "Redux" H).
Defined.

(** ** The persistent value cell and the rest of the store *)

Lemma setValues_other_key (key k' : string) (newValues : list string) :
  k' ≠ key ->
  forall c, storage (setValues key newValues c) !! k' = storage c !! k'.
Proof.
  intros Hne. unfold setValues.
  induction newValues as [|v rest IH]; intros c; simpl; [done|].
  rewrite IH. unfold setValue.
  destruct (String.eqb (value c) v); simpl; [done|].
  unfold setItem. by rewrite lookup_insert_ne.
Qed.

(** X10. The cell writes under its own key only: whatever values it is set
    to, every other key of the store holds what it held before the cell was
    initialized. *)
Theorem useSemiPersistentState_other_keys
    (key initialState k' : string) (store : localStorage)
    (newValues : list string) :
  k' ≠ key ->
  storage (setValues key newValues
             (useSemiPersistentState_init key initialState store)) !! k'
  = store !! k'.
Proof.
  intros Hne. rewrite setValues_other_key by done.
  unfold useSemiPersistentState_init, setItem. simpl.
  by rewrite lookup_insert_ne.
Qed.

Lemma useSemiPersistentState_other_keys_witness :
  let store : localStorage := {[ "theme" := "dark" ]} in
  "theme" ≠ "search" /\
  storage (setValues "search" ["Re"; "Redux"]
             (useSemiPersistentState_init "search" "React" store)) !! "theme"
  = store !! "theme".
Proof.
  intros store.
  assert ("theme" ≠ "search") as H by discriminate.
  split; [exact H|].
  apply (useSemiPersistentState_other_keys
           "search" "React" "theme" store ["Re"; "Redux"] H).
Defined.

(** X11. What a session leaves in the store is what the next one starts
    with: initializing a cell from that store gives the value the first cell
    held last, unless that value is the empty string, in which case the new
    cell starts with its default. *)
Theorem useSemiPersistentState_reload
    (key initialState initialState' : string) (store : localStorage)
    (newValues : list string) :
  let c := setValues key newValues
             (useSemiPersistentState_init key initialState store) in
  value (useSemiPersistentState_init key initialState' (storage c))
  = if String.eqb (value c) "" then initialState' else value c.
Proof.
  intros c.
  assert (storage c !! key = Some (value c)) as Hsync.
  { subst c. apply setValues_synced.
    unfold useSemiPersistentState_init, setItem. simpl. apply lookup_insert_eq. }
  unfold useSemiPersistentState_init, getItem. simpl. rewrite Hsync.
  by destruct (value c).
Qed.

(** ** The sorted view *)

Lemma String_leb_refl (a : string) : String.leb a a = true.
Proof. by destruct (String.leb_total a a). Qed.

Lemma prop_leb_total (p : Property) (a b : Story) :
  prop_leb p a b = true \/ prop_leb p b a = true.
Proof. destruct p; simpl; try apply String.leb_total; lia. Qed.

Lemma prop_eqb_leb (p : Property) (x a b : Story) :
  prop_eqb p x a = true -> prop_eqb p x b = true -> prop_leb p a b = true.
Proof.
  destruct p; simpl.
  - intros <-%String.eqb_eq <-%String.eqb_eq. apply String_leb_refl.
  - intros <-%String.eqb_eq <-%String.eqb_eq. apply String_leb_refl.
  - lia.
  - lia.
Qed.

Section StableSort.
Context {A : Type} (le : A -> A -> bool).
Hypothesis le_total : forall a b, le a b = true \/ le b a = true.
Hypothesis le_trans : forall a b c, le a b = true -> le b c = true -> le a c = true.

Lemma insert_sorted_forallb (f : A -> bool) (x : A) (l : list A) :
  forallb f (insert_sorted le x l) = f x && forallb f l.
Proof.
  induction l as [|y rest IH]; simpl; [done|].
  destruct (le x y); simpl; [done|].
  rewrite IH. by destruct (f x), (f y).
Qed.

Lemma insert_sorted_pairwise (x : A) (l : list A) :
  pairwise le l = true -> pairwise le (insert_sorted le x l) = true.
Proof.
  induction l as [|y rest IH]; simpl; [done|].
  intros [Hy Hrest]%andb_true_iff.
  destruct (le x y) eqn:Hxy; simpl.
  - rewrite Hxy, Hy, Hrest. simpl. rewrite andb_true_r.
    rewrite forallb_forall in *. eauto.
  - rewrite insert_sorted_forallb, Hy, IH by done.
    destruct (le_total x y) as [H|H]; [congruence | by rewrite H].
Qed.

Lemma stable_sort_pairwise (l : list A) : pairwise le (stable_sort le l) = true.
Proof.
  unfold stable_sort. induction l as [|x rest IH]; simpl; [done|].
  by apply insert_sorted_pairwise.
Qed.

Lemma insert_sorted_Permutation (x : A) (l : list A) :
  insert_sorted le x l ≡ₚ x :: l.
Proof.
  induction l as [|y rest IH]; simpl; [done|].
  destruct (le x y); [done|]. rewrite IH. apply perm_swap.
Qed.

Lemma stable_sort_Permutation (l : list A) : stable_sort le l ≡ₚ l.
Proof.
  unfold stable_sort. induction l as [|x rest IH]; simpl; [done|].
  by rewrite insert_sorted_Permutation, IH.
Qed.

(** Filtering commutes with inserting into a sorted list, and so with
    sorting. *)
Lemma insert_sorted_filter (f : A -> bool) (x : A) (l : list A) :
  pairwise le l = true ->
  List.filter f (insert_sorted le x l)
  = if f x then insert_sorted le x (List.filter f l) else List.filter f l.
Proof.
  induction l as [|y rest IH]; simpl.
  - by destruct (f x).
  - intros [Hy Hrest]%andb_true_iff. destruct (le x y) eqn:Hxy; simpl.
    + destruct (f x) eqn:Hfx; [|done].
      destruct (f y) eqn:Hfy; simpl; [by rewrite Hxy|].
      symmetry. apply insert_sorted_first.
      rewrite forallb_forall in *. intros z [Hz _]%filter_In. eauto.
    + rewrite (IH Hrest).
      destruct (f x), (f y); simpl; by rewrite ?Hxy.
Qed.

Lemma stable_sort_filter (f : A -> bool) (l : list A) :
  stable_sort le (List.filter f l) = List.filter f (stable_sort le l).
Proof.
  induction l as [|x rest IH]; simpl; [done|].
  change (foldr (insert_sorted le) [] rest) with (stable_sort le rest).
  rewrite insert_sorted_filter by apply stable_sort_pairwise.
  destruct (f x); [|done]. simpl.
  change (foldr (insert_sorted le) [] (List.filter f rest))
    with (stable_sort le (List.filter f rest)).
  by rewrite IH.
Qed.

(** Stability: the elements of a class whose members are below each other
    keep their order. *)
Lemma stable_sort_stable (f : A -> bool) (l : list A) :
  (forall a b, f a = true -> f b = true -> le a b = true) ->
  List.filter f (stable_sort le l) = List.filter f l.
Proof.
  intros Hclass. rewrite <- stable_sort_filter.
  apply stable_sort_ascending.
  induction l as [|x rest IH]; simpl; [done|].
  destruct (f x) eqn:Hfx; [|done]. simpl. rewrite IH, andb_true_r.
  apply forallb_forall. intros z [_ Hz]%filter_In. by apply Hclass.
Qed.
End StableSort.

Lemma pairwise_snoc {A} (r : A -> A -> bool) (l : list A) (x : A) :
  pairwise r l = true -> forallb (fun y => r y x) l = true ->
  pairwise r (l ++ [x]) = true.
Proof.
  induction l as [|y rest IH]; simpl; [done|].
  intros [Hy Hrest]%andb_true_iff [Hyx Hall]%andb_true_iff.
  rewrite forallb_app, Hy, IH by done. simpl. by rewrite Hyx.
Qed.

Lemma pairwise_rev {A} (r : A -> A -> bool) (l : list A) :
  pairwise r l = true -> pairwise (fun a b => r b a) (rev l) = true.
Proof.
  induction l as [|x rest IH]; simpl; [done|].
  intros [Hx Hrest]%andb_true_iff.
  apply pairwise_snoc; [by apply IH|].
  rewrite forallb_forall in *. intros y Hy%in_rev. by apply Hx.
Qed.

Lemma renderedRows_value
    (sort : SortState) (arr : ref) (h : heap) (xs : list Story) :
  h !! arr = Some xs -> renderedRows sort arr h = Some (sortedValue sort xs).
Proof.
  intros H. destruct (sortedList_value sort arr h xs H) as (r & h' & Hrun & Hr).
  unfold renderedRows. by rewrite Hrun.
Qed.

Lemma sortBy_pairwise (p : Property) (xs : list Story) :
  pairwise (prop_leb p) (stable_sort (prop_leb p) xs) = true.
Proof.
  apply stable_sort_pairwise; [apply prop_leb_total | apply prop_leb_trans].
Qed.

Lemma sortedValue_Permutation (sort : SortState) (xs : list Story) :
  sortedValue sort xs ≡ₚ xs.
Proof.
  destruct sort as [k r]. unfold sortedValue, sortValue.
  destruct k, r; simpl;
    rewrite <- ?Permutation_rev, ?stable_sort_Permutation; done.
Qed.

Lemma sortedValue_is_ordered (sort : SortState) (xs : list Story) :
  ordered sort (sortedValue sort xs) = true.
Proof.
  destruct sort as [k r]. unfold ordered, descending, sortedValue, sortValue.
  destruct k, r; cbn [sortKey isReverse keyProperty baseDescending xorb negb];
    rewrite ?rev_involutive; try done;
    apply pairwise_adjacent;
    first [ apply sortBy_pairwise
          | apply (pairwise_rev (prop_leb _)), sortBy_pairwise ].
Qed.

(** X12. In every sort state the rows of the table are the stories of the
    input array, each as often as there, in the order of the sort key and
    direction. *)
Theorem renderedRows_sorted_permutation
    (sort : SortState) (arr : ref) (h : heap) (xs : list Story) :
  h !! arr = Some xs ->
  exists ys, renderedRows sort arr h = Some ys /\
    ys ≡ₚ xs /\ ordered sort ys = true.
Proof.
  intros H. exists (sortedValue sort xs).
  split; [by apply renderedRows_value|].
  split; [apply sortedValue_Permutation | apply sortedValue_is_ordered].
Qed.

Lemma renderedRows_sorted_permutation_witness :
  let xs := [story1; story3; story2] in
  let h : heap := {[ 0%nat := xs ]} in
  let sort := {| sortKey := POINT; isReverse := false |} in
  h !! 0%nat = Some xs /\
  exists ys, renderedRows sort 0%nat h = Some ys /\
    ys ≡ₚ xs /\ ordered sort ys = true.
Proof.
  intros xs h sort. split; [reflexivity|].
  apply (renderedRows_sorted_permutation sort 0%nat h xs). reflexivity.
Defined.

(** X13. Selecting the active sort key once more shows the same rows in the
    opposite order, the input array holding the same. *)
Theorem second_click_reverses_rows
    (sort : SortState) (arr : ref) (h : heap) (xs : list Story) :
  h !! arr = Some xs ->
  exists ys, renderedRows sort arr h = Some ys /\
    renderedRows (handleSort (sortKey sort) sort) arr h = Some (rev ys).
Proof.
  intros H. exists (sortedValue sort xs).
  rewrite !(renderedRows_value _ _ _ _ H). split; [done|]. f_equal.
  destruct sort as [k r]. unfold handleSort, sortedValue. simpl.
  replace (SortKey_eqb k k) with true by (by destruct k).
  destruct r; simpl; by rewrite ?rev_involutive.
Qed.

Lemma second_click_reverses_rows_witness :
  let xs := [story1; story3; story2] in
  let h : heap := {[ 0%nat := xs ]} in
  let sort := {| sortKey := POINT; isReverse := false |} in
  h !! 0%nat = Some xs /\
  exists ys, renderedRows sort 0%nat h = Some ys /\
    renderedRows (handleSort (sortKey sort) sort) 0%nat h = Some (rev ys).
Proof.
  intros xs h sort. split; [reflexivity|].
  apply (second_click_reverses_rows sort 0%nat h xs). reflexivity.
Defined.

(** X14. Stories with the same value of the sort key: in an ascending view
    they are shown in the order they have in the input, in a descending view
    in the opposite order. *)
Theorem renderedRows_ties
    (sort : SortState) (p : Property) (arr : ref) (h : heap)
    (xs : list Story) (x : Story) :
  keyProperty (sortKey sort) = Some p ->
  h !! arr = Some xs ->
  exists ys, renderedRows sort arr h = Some ys /\
    List.filter (prop_eqb p x) ys
    = if descending sort then rev (List.filter (prop_eqb p x) xs)
      else List.filter (prop_eqb p x) xs.
Proof.
  intros Hp H. exists (sortedValue sort xs).
  split; [by apply renderedRows_value|].
  assert (List.filter (prop_eqb p x) (stable_sort (prop_leb p) xs)
          = List.filter (prop_eqb p x) xs) as Hstable.
  { apply stable_sort_stable;
      [apply prop_leb_total | apply prop_leb_trans | apply prop_eqb_leb]. }
  destruct sort as [k r]. unfold descending, sortedValue, sortValue.
  destruct k; simpl in Hp; try discriminate; injection Hp as <-;
    destruct r; simpl; rewrite ?rev_involutive, ?filter_rev, Hstable; done.
Qed.

Lemma renderedRows_ties_witness :
  let xs := [story2; story1; story3] in
  let h : heap := {[ 0%nat := xs ]} in
  let sort := {| sortKey := COMMENT; isReverse := false |} in
  keyProperty (sortKey sort) = Some P_num_comments /\
  h !! 0%nat = Some xs /\
  exists ys, renderedRows sort 0%nat h = Some ys /\
    List.filter (prop_eqb P_num_comments story2) ys
    = if descending sort
      then rev (List.filter (prop_eqb P_num_comments story2) xs)
      else List.filter (prop_eqb P_num_comments story2) xs.
Proof.
  intros xs h sort. split; [reflexivity|]. split; [reflexivity|].
  apply (renderedRows_ties sort P_num_comments 0%nat h xs story2);
    reflexivity.
Defined.

Lemma sortedValue_filter (sort : SortState) (f : Story -> bool) (xs : list Story) :
  sortedValue sort (List.filter f xs) = List.filter f (sortedValue sort xs).
Proof.
  destruct sort as [k r]. unfold sortedValue, sortValue.
  destruct k, r; simpl; rewrite ?filter_rev; try done;
    by rewrite stable_sort_filter
      by (apply prop_leb_total || apply prop_leb_trans).
Qed.

(** X15. Removing a story and sorting commute: the rows shown for the data
    after REMOVE_STORY(item) are the rows shown before without those of the
    objectID of [item], in every sort state. *)
Theorem renderedRows_after_remove
    (sort : SortState) (item : Story) (s s' : StoriesState)
    (arr arr' : ref) (h h' : heap) :
  handleRemoveStory item s = Some s' ->
  h !! arr = Some (data s) ->
  h' !! arr' = Some (data s') ->
  renderedRows sort arr' h'
  = List.filter (keeps item) <$> renderedRows sort arr h.
Proof.
  intros [= <-] H H'. simpl in H'.
  rewrite (renderedRows_value _ _ _ _ H), (renderedRows_value _ _ _ _ H').
  simpl. f_equal. apply sortedValue_filter.
Qed.

Lemma renderedRows_after_remove_witness :
  let s := {| data := [story1; story3; story2];
              isLoading := false; isError := false |} in
  let s' := {| data := [story1; story2];
               isLoading := false; isError := false |} in
  let h : heap := {[ 0%nat := data s ]} in
  let h' : heap := {[ 0%nat := data s' ]} in
  let sort := {| sortKey := POINT; isReverse := false |} in
  handleRemoveStory story3 s = Some s' /\
  renderedRows sort 0%nat h'
  = List.filter (keeps story3) <$> renderedRows sort 0%nat h.
Proof.
  intros s s' h h' sort. split; [reflexivity|].
  apply (renderedRows_after_remove sort story3 s s' 0%nat 0%nat h h');
    reflexivity.
Defined.

(** X16. Whatever column headers are clicked, in whatever order, computing
    the rows returns an array and leaves the input array with its content. *)
Theorem header_clicks_keep_input
    (clicks : list SortKey) (arr : ref) (h : heap) (xs : list Story) :
  Forall (fun k => k ∈ headerKeys) clicks ->
  h !! arr = Some xs ->
  exists r h', sortedList (clickHeaders clicks initialSort) arr h = Some (r, h') /\
    h' !! arr = Some xs.
Proof.
  intros Hclicks H.
  destruct (sortedList_run (clickHeaders clicks initialSort) arr h xs H
              (clickHeaders_not_NONE_reversed clicks Hclicks)) as [[-> _] | ->].
  - by exists arr, h.
  - eexists _, _; split; [done|].
    rewrite lookup_insert_ne; [done|]. by eapply fresh_ne.
Qed.

Lemma header_clicks_keep_input_witness :
  let clicks := [TITLE; POINT; POINT] in
  let h : heap := {[ 0%nat := [story1; story2] ]} in
  Forall (fun k => k ∈ headerKeys) clicks /\
  h !! 0%nat = Some [story1; story2] /\
  exists r h', sortedList (clickHeaders clicks initialSort) 0%nat h = Some (r, h') /\
    h' !! 0%nat = Some [story1; story2].
Proof.
  intros clicks h.
  assert (Forall (fun k => k ∈ headerKeys) clicks) as Hc.
  { unfold clicks, headerKeys. repeat constructor. }
  split; [exact Hc|]. split; [reflexivity|].
  apply (header_clicks_keep_input clicks 0%nat h [story1; story2] Hc).
  reflexivity.
Defined.

Lemma clickHeaders_same_key (k : SortKey) (n : nat) (r : bool) :
  clickHeaders (repeat k n) {| sortKey := k; isReverse := r |}
  = {| sortKey := k; isReverse := if Nat.even n then r else negb r |}.
Proof.
  revert r. induction n as [|n IH]; intros r; [done|].
  change (clickHeaders (repeat k (S n)) {| sortKey := k; isReverse := r |})
    with (clickHeaders (repeat k n)
            (handleSort k {| sortKey := k; isReverse := r |})).
  unfold handleSort. simpl sortKey. simpl isReverse.
  replace (SortKey_eqb k k) with true by (by destruct k).
  rewrite IH. f_equal. rewrite Nat.even_succ, <- Nat.negb_even.
  destruct (Nat.even n); simpl; by rewrite ?negb_involutive.
Qed.

(** X17. Clicking one header several times in a row, starting when another
    key (or none) is active: the view is sorted by that key, and reversed
    exactly after an even number of clicks. *)
Theorem repeated_clicks (sort : SortState) (k : SortKey) (n : nat) :
  sortKey sort ≠ k ->
  clickHeaders (repeat k (S n)) sort
  = {| sortKey := k; isReverse := Nat.odd n |}.
Proof.
  intros Hne.
  change (clickHeaders (repeat k (S n)) sort)
    with (clickHeaders (repeat k n) (handleSort k sort)).
  unfold handleSort.
  replace (SortKey_eqb (sortKey sort) k) with false
    by (destruct sort as [[] ?], k; simpl in *; congruence).
  simpl. rewrite clickHeaders_same_key, <- Nat.negb_even.
  by destruct (Nat.even n).
Qed.

Lemma repeated_clicks_witness :
  sortKey initialSort ≠ POINT /\
  clickHeaders (repeat POINT 2) initialSort
  = {| sortKey := POINT; isReverse := Nat.odd 1 |}.
Proof.
  assert (sortKey initialSort ≠ POINT) as H by discriminate.
  split; [exact H|]. apply (repeated_clicks initialSort POINT 1 H).
Defined.

(** ** Across a reload, and the keys of the rows *)

(** X18. A reload searches for what was typed last in the search field,
    submitted or not: the first URL issued from the store a session leaves
    behind is the URL of the last value of the field, or of 'React' when the
    field was left empty. *)
Theorem startApp_after_session (store : localStorage) (typed : list string) :
  let c := setValues "search" typed
             (useSemiPersistentState_init "search" "React" store) in
  let term := if String.eqb (value c) "" then "React" else value c in
  searchTerm (startApp (storage c)) = term /\
  urls (startApp (storage c)) = [getUrl term].
Proof.
  intros c term.
  assert (storage c !! "search" = Some (value c)) as Hsync.
  { subst c. apply setValues_synced.
    unfold useSemiPersistentState_init, setItem. simpl. apply lookup_insert_eq. }
  unfold startApp, initialApp, useSemiPersistentState_init, getItem.
  cbn [value searchTerm urls]. rewrite Hsync. subst term.
  by destruct (value c).
Qed.

Lemma filter_remove_one (item : Story) (l : list Story) :
  NoDup (map objectID l) -> In item l ->
  (length (List.filter (keeps item) l) + 1 = length l)%nat.
Proof.
  induction l as [|x rest IH]; simpl; [done|].
  intros [Hx Hrest]%NoDup_cons [<- | Hin].
  - unfold keeps at 1. rewrite String.eqb_refl. simpl.
    rewrite filter_all_true; [lia|].
    apply Forall_forall. intros y Hy. apply keeps_true. intros E.
    apply Hx. rewrite <- E. apply list_elem_of_In, in_map.
    by apply list_elem_of_In.
  - assert (keeps item x = true) as ->.
    { apply keeps_true. intros E. apply Hx. rewrite E.
      by apply list_elem_of_In, in_map. }
    simpl. specialize (IH Hrest Hin). lia.
Qed.

(** X19. When the stories of the state have pairwise different objectIDs,
    removing one of them takes exactly one entry away. *)
Theorem handleRemoveStory_one_row (item : Story) (s : StoriesState) :
  NoDup (map objectID (data s)) ->
  In item (data s) ->
  exists s', handleRemoveStory item s = Some s' /\
    (length (data s') + 1 = length (data s))%nat.
Proof.
  intros Hnodup Hin. eexists; split; [reflexivity|]. simpl.
  by apply filter_remove_one.
Qed.

Lemma handleRemoveStory_one_row_witness :
  let s := {| data := [story1; story2; story3];
              isLoading := false; isError := false |} in
  NoDup (map objectID (data s)) /\
  In story2 (data s) /\
  exists s', handleRemoveStory story2 s = Some s' /\
    (length (data s') + 1 = length (data s))%nat.
Proof.
  intros s.
  assert (NoDup (map objectID (data s))) as Hn.
  { simpl. repeat constructor; rewrite ?elem_of_cons, ?elem_of_nil;
      intuition discriminate. }
  assert (In story2 (data s)) as Hi by (simpl; auto).
  split; [exact Hn|]. split; [exact Hi|].
  apply (handleRemoveStory_one_row story2 s Hn Hi).
Defined.

(** X20. The rows are keyed by objectID: when the stories of the input array
    have pairwise different objectIDs, so have the rows, in every sort
    state. *)
Theorem renderedRows_keys_unique
    (sort : SortState) (arr : ref) (h : heap) (xs : list Story) :
  NoDup (map objectID xs) ->
  h !! arr = Some xs ->
  exists ys, renderedRows sort arr h = Some ys /\ NoDup (map objectID ys).
Proof.
  intros Hnodup H. exists (sortedValue sort xs).
  split; [by apply renderedRows_value|].
  assert (map objectID (sortedValue sort xs) ≡ₚ map objectID xs) as ->
    by apply Permutation_map, sortedValue_Permutation.
  exact Hnodup.
Qed.

Lemma renderedRows_keys_unique_witness :
  let xs := [story1; story3; story2] in
  let h : heap := {[ 0%nat := xs ]} in
  let sort := {| sortKey := TITLE; isReverse := true |} in
  NoDup (map objectID xs) /\
  h !! 0%nat = Some xs /\
  exists ys, renderedRows sort 0%nat h = Some ys /\ NoDup (map objectID ys).
Proof.
  intros xs h sort.
  assert (NoDup (map objectID xs)) as Hn.
  { simpl. repeat constructor; rewrite ?elem_of_cons, ?elem_of_nil;
      intuition discriminate. }
  split; [exact Hn|]. split; [reflexivity|].
  apply (renderedRows_keys_unique sort 0%nat h xs Hn). reflexivity.
Defined.
